(** * mpris2controller: the player registry, the command dispatch and the
      client bootstrap of [mpris2controller/controller.py]

    The development follows the layout of the source file:
    - [Registry]: the two containers of [Controller] ([playing], a Python
      set, and [not_playing], a Python list) with [markas_playing],
      [markas_not_playing], [remove] and the two signal handlers;
    - [Dispatch]: the exported D-Bus methods [PlayPause], [Next] and
      [Previous], run against a bus whose outbound calls may raise
      [DBusException];
    - [Bootstrap]: [entry_point] with its helpers, run against a session bus
      that answers the ownership probes of [_daemon_up]. *)

From stdpp Require Import gmap sets list strings.
From Stdlib Require Import QArith.

Close Scope Q_scope.

Local Open Scope string_scope.
Local Open Scope list_scope.

(** ** Constants of the module *)

Definition MY_BUS_NAME : string := "org.icasdri.mpris2controller".
Definition MY_PATH : string := "/org/icasdri/mpris2controller".
Definition MPRIS_PATH : string := "/org/mpris/MediaPlayer2".
Definition MPRIS_INTERFACE : string := "org.mpris.MediaPlayer2.Player".

(** The exceptions the module meets. *)
Inductive PyExc : Type :=
  | ValueError
  | TypeError
  | IndexError
  | DBusException.

(** ** The registry kept by [Controller] *)

Module Registry.

(** [self.playing = set()], [self.not_playing = []]. *)
Record Controller : Type := mkController {
  playing : gset string;
  not_playing : list string
}.

Definition init : Controller :=
  {| playing := ∅; not_playing := [] |}.

(** [list.remove(x)]: drops the first element equal to [x]; [None] stands
    for the [ValueError] Python raises when there is none. *)
Fixpoint list_remove (x : string) (l : list string) : option (list string) :=
  match l with
  | [] => None
  | y :: l' =>
      if decide (y = x) then Some l'
      else match list_remove x l' with
           | Some r => Some (y :: r)
           | None => None
           end
  end.

(** [markas_playing]: the [try]/[except ValueError: pass] around
    [not_playing.remove] keeps the list when the name is absent; the
    membership test and [add] come after the [try] block. *)
Definition markas_playing (name : string) (c : Controller) : Controller :=
  let np := match list_remove name (not_playing c) with
            | Some l => l
            | None => not_playing c
            end in
  if decide (name ∈ playing c)
  then {| playing := playing c; not_playing := np |}
  else {| playing := playing c ∪ {[name]}; not_playing := np |}.

(** [markas_not_playing]: [discard], then [append] unless present. *)
Definition markas_not_playing (name : string) (c : Controller) : Controller :=
  let pl := playing c ∖ {[name]} in
  if decide (name ∈ not_playing c)
  then {| playing := pl; not_playing := not_playing c |}
  else {| playing := pl; not_playing := not_playing c ++ [name] |}.

(** [remove]: both statements sit inside the [try] block, so the
    [ValueError] of [not_playing.remove] skips [playing.discard]. *)
Definition remove (name : string) (c : Controller) : Controller :=
  match list_remove name (not_playing c) with
  | Some l => {| playing := playing c ∖ {[name]}; not_playing := l |}
  | None => c
  end.

(** [handle_signal_properties_changed(interface, props, sig, sender)];
    [props] is the dictionary of changed properties, [sig] is unused. *)
Definition handle_signal_properties_changed
    (interface : string) (props : gmap string string) (sender : string)
    (c : Controller) : Controller :=
  if decide (interface = MPRIS_INTERFACE) then
    match props !! "PlaybackStatus" with
    | Some status =>
        if decide (status = "Playing")
        then markas_playing sender c
        else markas_not_playing sender c
    | None => c
    end
  else c.

(** [handle_signal_name_change(name, old_owner, new_owner)]. *)
Definition handle_signal_name_change
    (name old_owner new_owner : string) (c : Controller) : Controller :=
  if decide (new_owner = "") then remove name c else c.

(** The calls that change the registry, and their runs. *)
Inductive Op : Type :=
  | MarkPlaying (id : string)
  | MarkNotPlaying (id : string)
  | Remove (id : string).

Definition apply_op (c : Controller) (o : Op) : Controller :=
  match o with
  | MarkPlaying id => markas_playing id c
  | MarkNotPlaying id => markas_not_playing id c
  | Remove id => remove id c
  end.

Definition run (ops : list Op) (c : Controller) : Controller :=
  fold_left apply_op ops c.

(** I1: no identifier is in both containers. *)
Definition I1 (c : Controller) : Prop :=
  ∀ x, x ∈ playing c → x ∈ not_playing c → False.

(** I2: [not_playing] holds no identifier twice. *)
Definition I2 (c : Controller) : Prop := NoDup (not_playing c).

(** The registry with every trace of [id] taken out: what the registry
    would be had [id] never been seen. *)
Definition forget (id : string) (c : Controller) : Controller :=
  {| playing := playing c ∖ {[id]};
     not_playing := filter (λ y, y ≠ id) (not_playing c) |}.

End Registry.

(** ** The exported methods of [Controller] *)

Module Dispatch.
Import Registry.

(** An outbound call [bus.get_object(n, MPRIS_PATH).method_name()]: the
    bus name of the player and the name of the method. *)
Definition Call : Type := string * string.

(** The call of [method_name] on player [n]. *)
Definition call_of (method_name : string) (n : string) : Call :=
  (n, method_name).

Inductive result (A : Type) : Type :=
  | Ok (a : A)
  | Raise (e : PyExc).
Arguments Ok {A} a.
Arguments Raise {A} e.

(** What a method leaves behind: the controller, the outbound calls it
    issued, in order, and its return value or the exception that left it. *)
Record Run (A : Type) : Type := mkRun {
  final : Controller;
  sent : list Call;
  outcome : result A
}.
Arguments mkRun {A} final sent outcome.
Arguments final {A} r.
Arguments sent {A} r.
Arguments outcome {A} r.

Definition M (A : Type) : Type := Controller → Run A.

#[global] Instance M_ret : MRet M := λ A a c, mkRun c [] (Ok a).

#[global] Instance M_bind : MBind M := λ A B f m c,
  let r := m c in
  match outcome r with
  | Ok a =>
      let r' := f a (final r) in
      mkRun (final r') (sent r ++ sent r') (outcome r')
  | Raise e => mkRun (final r) (sent r) (Raise e)
  end.

(** Reading [self]. *)
Definition get_self : M Controller := λ c, mkRun c [] (Ok c).

Definition raise {A : Type} (e : PyExc) : M A := λ c, mkRun c [] (Raise e).

(** [for n in l: body(n)]: an exception in the body leaves the loop. *)
Fixpoint for_each (l : list string) (body : string → M ()) : M () :=
  match l with
  | [] => mret ()
  | n :: l' => body n ;; for_each l' body
  end.

Section methods.

(** [bus n m] tells whether the outbound call of method [m] on player [n]
    returns ([true]) or raises [DBusException] ([false]). *)
Variable bus : string → string → bool.

(** The order in which [for n in self.playing] visits a set; Python leaves
    it unspecified, it only enumerates every member once. *)
Variable set_iter : gset string → list string.

Definition remote_call (n method_name : string) : M () := λ c,
  mkRun c [(n, method_name)]
        (if bus n method_name then Ok () else Raise DBusException).

Definition call_on_all_playing (method_name : string) : M () :=
  self ← get_self;
  for_each (set_iter (playing self)) (λ n, remote_call n method_name).

Definition call_on_one_playing (method_name : string) : M () :=
  self ← get_self;
  if decide (size (playing self) = 1)
  then call_on_all_playing method_name
  else mret ().

(** [self.not_playing[-1]] is the last element of the list. *)
Definition call_on_head_not_playing (method_name : string) : M () :=
  self ← get_self;
  if decide (0 < length (not_playing self)) then
    match last (not_playing self) with
    | Some n => remote_call n method_name
    | None => raise IndexError
    end
  else mret ().

Definition PlayPause : M () :=
  self ← get_self;
  if decide (0 < size (playing self))
  then call_on_all_playing "Pause"
  else call_on_head_not_playing "Play".

Definition Next : M () := call_on_one_playing "Next".

Definition Previous : M () := call_on_one_playing "Previous".

End methods.

(** Buses and registries for concrete runs. *)

Definition all_reachable : string → string → bool := λ _ _, true.

(** A bus on which player ["A"] has gone away. *)
Definition A_unreachable : string → string → bool :=
  λ n _, bool_decide (n ≠ "A").

Definition playing_A_B : Controller :=
  {| playing := {["A"; "B"]}; not_playing := ["X"] |}.

End Dispatch.

(** ** The daemon: players found at start-up, and the signals it serves *)

Module Daemon.
Import Registry.

(** [s.find(sub)]: the lowest index at which [sub] occurs in [s], or -1. *)
Definition str_find (s sub : string) : Z :=
  match String.index 0 sub s with
  | Some i => Z.of_nat i
  | None => (-1)%Z
  end.

Definition is_mpris_player (name : string) : bool :=
  bool_decide (str_find name "org.mpris.MediaPlayer2" = 0%Z).

(** The bus as [Controller.__init__] questions it: the registered names,
    the owner of a well-known name, and the [PlaybackStatus] property of
    the player behind a connection; [None] stands for the [DBusException]
    of a query the bus cannot answer. *)
Record StartBus : Type := mkStartBus {
  list_names : list string;
  get_name_owner : string → option string;
  playback_status : string → option string
}.

Section start.

Variable bus : StartBus.

(** The loop "Detecting players already on bus..." of [__init__]; an
    exception of a query leaves the loop and the constructor. *)
Fixpoint detect (names : list string) (c : Controller) : option Controller :=
  match names with
  | [] => Some c
  | well_known_name :: names' =>
      match get_name_owner bus well_known_name with
      | None => None
      | Some name =>
          match playback_status bus name with
          | None => None
          | Some status =>
              if decide (status = "Playing")
              then detect names' (markas_playing name c)
              else detect names' (markas_not_playing name c)
          end
      end
  end.

(** [Controller.__init__], as far as the registry goes: both containers
    start empty, then the players already on the bus are classified. *)
Definition Controller_init : option Controller :=
  detect (filter (λ n, is_mpris_player n) (list_names bus)) init.

(** Every identifier sits in the container its status asks for. *)
Definition sorted_by_status (c : Controller) : Prop :=
  ∀ x, (x ∈ playing c → playback_status bus x = Some "Playing")
       ∧ (x ∈ not_playing c → playback_status bus x ≠ Some "Playing").

End start.

(** The two signals the controller subscribes to. *)
Inductive Signal : Type :=
  | PropertiesChanged (interface : string) (props : gmap string string)
                      (sender : string)
  | NameOwnerChanged (name old_owner new_owner : string).

Definition handle (c : Controller) (s : Signal) : Controller :=
  match s with
  | PropertiesChanged interface props sender =>
      handle_signal_properties_changed interface props sender c
  | NameOwnerChanged name old_owner new_owner =>
      handle_signal_name_change name old_owner new_owner c
  end.

(** The signals of a run of the main loop, served one after another. *)
Definition serve (sigs : list Signal) (c : Controller) : Controller :=
  fold_left handle sigs c.

(** A bus with one player, connection [":1.5"], known under an MPRIS name,
    next to a name that is no player. *)
Definition one_player_bus (status : string) : StartBus :=
  {| list_names := ["org.freedesktop.DBus"; "org.mpris.MediaPlayer2.vlc"];
     get_name_owner := λ n,
       if decide (n = "org.mpris.MediaPlayer2.vlc") then Some ":1.5"
       else Some ":1.0";
     playback_status := λ _, Some status |}.

End Daemon.

(** ** The client side: [entry_point] and its helpers *)

Module Bootstrap.

(** The namespace [argparse] hands back. *)
Record Args : Type := mkArgs {
  call : option string;
  no_fork : bool;
  debug : bool
}.

(** What the process does that can be seen from outside. [log.info] and
    [log.debug] lines are left out, [log.error] lines are kept. *)
Inductive Event : Type :=
  | NameHasOwner (owned : bool)
  | Fork
  | Sleep (secs : Q)
  | CallMethod (method_name : string) (ok : bool)
  | TimeoutAdd (ms : Z)
  | StartDaemon
  | LogError (msg : string).

(** How the process stops running the code of [entry_point]: [exit(code)],
    the blocking [MainLoop().run()] of the daemon, or an exception nobody
    catches. *)
Inductive Outcome : Type :=
  | SystemExit (code : Z)
  | MainLoopRuns
  | Uncaught (e : PyExc).

(** How [getattr(proxy, method_name)()] ends: it returns, or it raises an
    exception [e] whose text, [str(ex)], is [text]. A method the daemon
    does not answer gives a [DBusException]; a name such as ["__doc__"],
    which [getattr] resolves to something that is no method, gives a
    [TypeError]. *)
Inductive CallOutcome : Type :=
  | Returns
  | Raises (e : PyExc) (text : string).

(** The session bus as the process meets it: the answer to the k-th
    [name_has_owner(MY_BUS_NAME)] probe of the process, how a method call
    on the daemon's object ends, and the players the constructor of
    [Controller] finds when the process becomes the daemon itself. *)
Record SessionBus : Type := mkSessionBus {
  name_has_owner : nat → bool;
  daemon_call : string → CallOutcome;
  players : Daemon.StartBus
}.

(** The line feed of ["{}\nFailed to call method {}."]. *)
Definition newline : string := String (Ascii.ascii_of_nat 10) EmptyString.

Record Proc : Type := mkProc {
  probes : nat;
  trace : list Event
}.

Definition start : Proc := {| probes := 0; trace := [] |}.

Inductive Step (A : Type) : Type :=
  | Cont (a : A) (p : Proc)
  | Halt (o : Outcome) (p : Proc).
Arguments Cont {A} a p.
Arguments Halt {A} o p.

Definition P (A : Type) : Type := Proc → Step A.

#[global] Instance P_ret : MRet P := λ A a p, Cont a p.

#[global] Instance P_bind : MBind P := λ A B f m p,
  match m p with
  | Cont a p' => f a p'
  | Halt o p' => Halt o p'
  end.

Definition emit (e : Event) : P () := λ p,
  Cont () {| probes := probes p; trace := trace p ++ [e] |}.

Definition halt {A : Type} (o : Outcome) : P A := λ p, Halt o p.

Definition exit {A : Type} (code : Z) : P A := halt (SystemExit code).

Definition raise {A : Type} (e : PyExc) : P A := halt (Uncaught e).

Definition sleep (secs : Q) : P () := emit (Sleep secs).

(** A Python call of a function with one required positional parameter:
    any other number of arguments raises [TypeError] before the body runs. *)
Definition call_with {A : Type} (f : string → P A) (args : list string) : P A :=
  match args with
  | [x] => f x
  | _ => raise TypeError
  end.

(** The intervals of the [for wait in (...)] loop of [entry_point]. *)
Definition wait_schedule : list Q := [0.2; 0.3; 0.4; 0.4; 1.2; 2.3]%Q.

Section client.

Variable bus : SessionBus.

(** The check at the end of [_parse_args]; the parsing itself and the log
    handlers are argparse's and logging's business. *)
Definition _parse_args (args : Args) : P Args :=
  if no_fork args && bool_decide (call args ≠ None) then
    emit (LogError "Cannot specify method with --no-fork. Exiting.") ;;
    exit 1
  else mret args.

(** [Controller(dbus.SessionBus())] then [MainLoop().run()], which blocks;
    nothing catches the [DBusException] the constructor lets through when
    the bus does not answer one of its queries. *)
Definition _start_daemon : P () :=
  emit StartDaemon ;;
  match Daemon.Controller_init (players bus) with
  | Some _ => halt MainLoopRuns
  | None => raise DBusException
  end.

(** The parent's side of [os.fork()]: [child_1] is not 0, nothing else
    happens here. *)
Definition _fork_daemon (debug : bool) : P () := emit Fork.

(** [try: ... return True / except DBusException as ex: ... return False];
    the error line is ["{}\nFailed to call method {}.".format(ex,
    method_name)], and an exception of another class is not caught. *)
Definition _call_method (method_name : string) : P bool :=
  match daemon_call bus method_name with
  | Returns =>
      emit (CallMethod method_name true) ;;
      mret true
  | Raises DBusException ex =>
      emit (CallMethod method_name false) ;;
      emit (LogError (ex ++ newline ++ "Failed to call method "
                      ++ method_name ++ ".")%string) ;;
      mret false
  | Raises e _ =>
      emit (CallMethod method_name false) ;;
      raise e
  end.

Definition _daemon_up : P bool := λ p,
  let owned := name_has_owner bus (probes p) in
  Cont owned {| probes := S (probes p);
                trace := trace p ++ [NameHasOwner owned] |}.

(** The closure [_callback(count=0)] of [entry_point]: [_call_method] is
    called with no argument at all. *)
Definition _callback (count : Z) : P bool :=
  let count := (count + 1)%Z in
  r ← call_with _call_method [];
  mret (negb (r || (count >? 5)%Z)).

(** The [for wait in ...: ... break / else: ...] loop of [entry_point]. *)
Fixpoint wait_loop (waits : list Q) : P () :=
  match waits with
  | [] =>
      emit (LogError "Daemon failed to come up after several retries. Exiting") ;;
      exit 1
  | wait :: waits' =>
      sleep wait ;;
      up ← _daemon_up;
      if (up : bool) then sleep 0.2%Q else wait_loop waits'
  end.

Definition entry_point (options : Args) (nofork : bool) : P () :=
  args ← _parse_args options;
  up ← _daemon_up;
  (if negb up then
     if nofork || no_fork args then
       (if bool_decide (call args ≠ None)
        then emit (TimeoutAdd 400)
        else mret ()) ;;
       _start_daemon
     else
       _fork_daemon (debug args) ;;
       wait_loop wait_schedule
   else mret ()) ;;
  match call args with
  | Some method_name => _call_method method_name ;; mret ()
  | None => mret ()
  end ;;
  exit 0.

End client.

Definition proc_of {A : Type} (s : Step A) : Proc :=
  match s with
  | Cont _ p => p
  | Halt _ p => p
  end.

(** The sleeps of a trace that are directly followed by an ownership probe,
    in order: the waits between checks. *)
Fixpoint waits_between_checks (t : list Event) : list Q :=
  match t with
  | [] => []
  | e :: t' =>
      match e, t' with
      | Sleep w, NameHasOwner _ :: _ => w :: waits_between_checks t'
      | _, _ => waits_between_checks t'
      end
  end.

(** A bus without any registered name. *)
Definition empty_bus : Daemon.StartBus :=
  {| Daemon.list_names := [];
     Daemon.get_name_owner := λ _, None;
     Daemon.playback_status := λ _, None |}.

(** A session bus on which the daemon never takes the name. *)
Definition dead_bus : SessionBus :=
  {| name_has_owner := λ _, false;
     daemon_call := λ _, Raises DBusException "ServiceUnknown";
     players := empty_bus |}.

(** The trace of a client that forked a daemon which never came up. *)
Definition timeout_trace : list Event :=
  [ NameHasOwner false; Fork;
    Sleep 0.2; NameHasOwner false;
    Sleep 0.3; NameHasOwner false;
    Sleep 0.4; NameHasOwner false;
    Sleep 0.4; NameHasOwner false;
    Sleep 1.2; NameHasOwner false;
    Sleep 2.3; NameHasOwner false;
    LogError "Daemon failed to come up after several retries. Exiting" ]%Q.

End Bootstrap.

(** ** Runs of the client, event by event *)

Module ClientRuns.
Import Bootstrap.

(** The events of the polling loop when the [k]-th check after the fork is
    the first to find the daemon. *)
Definition polls (k : nat) : list Event :=
  flat_map (λ w, [Sleep w; NameHasOwner false]) (take (k - 1) wait_schedule)
  ++ match wait_schedule !! (k - 1) with
     | Some w => [Sleep w; NameHasOwner true]
     | None => []
     end.

(** The events of [if args.call is not None: _call_method(args.call)]. *)
Definition delivery (bus : SessionBus) (method : option string) : list Event :=
  match method with
  | None => []
  | Some m =>
      match daemon_call bus m with
      | Returns => [CallMethod m true]
      | Raises DBusException ex =>
          [CallMethod m false;
           LogError (ex ++ newline ++ "Failed to call method "
                     ++ m ++ ".")%string]
      | Raises _ _ => [CallMethod m false]
      end
  end.

(** How [entry_point] ends once that call is behind it: [exit()] when the
    call returned or its [DBusException] was caught, the exception itself
    when it is of another class. *)
Definition after_delivery (bus : SessionBus) (method : option string)
    : Outcome :=
  match method with
  | None => SystemExit 0
  | Some m =>
      match daemon_call bus m with
      | Returns => SystemExit 0
      | Raises DBusException _ => SystemExit 0
      | Raises e _ => Uncaught e
      end
  end.


(** The seconds slept along a trace. *)
Fixpoint total_sleep (t : list Event) : Q :=
  match t with
  | [] => 0%Q
  | Sleep w :: t' => (w + total_sleep t')%Q
  | _ :: t' => total_sleep t'
  end.

(** The method calls on the daemon along a trace. *)
Fixpoint calls_made (t : list Event) : list string :=
  match t with
  | [] => []
  | CallMethod m _ :: t' => m :: calls_made t'
  | _ :: t' => calls_made t'
  end.

Definition outcome_of {A : Type} (s : Step A) : option Outcome :=
  match s with
  | Cont _ _ => None
  | Halt o _ => Some o
  end.

(** A session bus on which the daemon holds the name from the [k]-th probe
    of the process on, and which refuses every method call. *)
Definition up_from (k : nat) : SessionBus :=
  {| name_has_owner := λ i, bool_decide (k ≤ i)%nat;
     daemon_call := λ _, Raises DBusException "UnknownMethod";
     players := empty_bus |}.

(** A session bus without daemon on which a player is registered whose
    [PlaybackStatus] cannot be read. *)
Definition silent_player_bus : SessionBus :=
  {| name_has_owner := λ _, false;
     daemon_call := λ _, Raises DBusException "ServiceUnknown";
     players :=
       {| Daemon.list_names := ["org.mpris.MediaPlayer2.vlc"];
          Daemon.get_name_owner := λ _, Some ":1.5";
          Daemon.playback_status := λ _, None |} |}.

(** A session bus with the daemon up, on which a call of ["__doc__"]
    raises [TypeError]. *)
Definition doc_call_bus : SessionBus :=
  {| name_has_owner := λ _, true;
     daemon_call := λ m,
       if decide (m = "__doc__")
       then Raises TypeError "'str' object is not callable"
       else Returns;
     players := empty_bus |}.

End ClientRuns.

(** ** Registries for concrete runs *)

Module Samples.
Import Registry.

(** ["C"] is playing; ["A"] stopped first, ["B"] after it. *)
Definition C_over_A_B : Controller :=
  {| playing := {["C"]}; not_playing := ["A"; "B"] |}.

(** Nobody is playing; ["B"] stopped last. *)
Definition idle_A_B : Controller :=
  {| playing := ∅; not_playing := ["A"; "B"] |}.

End Samples.

(** * Properties of the registry *)

Module RegistryFacts.
Import Registry.

(** ** [list.remove] *)

Lemma list_remove_None (x : string) (l : list string) :
  list_remove x l = None ↔ x ∉ l.
Proof.
  induction l as [|y l IH]; simpl.
  - split; [intros _; apply not_elem_of_nil | done].
  - rewrite not_elem_of_cons. case_decide as Hxy.
    + split; [done | intros [Hne _]; congruence].
    + destruct (list_remove x l) as [r|] eqn:Hr.
      * split; [done |]. intros [_ Hnot]. apply IH in Hnot. congruence.
      * split; [| done]. intros _. split; [congruence | by apply IH].
Qed.

Lemma list_remove_Some (x : string) (l r : list string) :
  list_remove x l = Some r →
  ∃ l1 l2, l = l1 ++ x :: l2 ∧ r = l1 ++ l2 ∧ x ∉ l1.
Proof.
  revert r. induction l as [|y l IH]; intros r; simpl; [done |].
  case_decide as Hxy.
  - intros [= <-]. subst y. exists [], l. split_and!; [done | done |].
    apply not_elem_of_nil.
  - destruct (list_remove x l) as [r'|] eqn:Hr; [| done].
    intros [= <-]. destruct (IH r' eq_refl) as (l1 & l2 & -> & -> & Hnot).
    exists (y :: l1), l2. split_and!; [done | done |].
    rewrite not_elem_of_cons. split; [congruence | done].
Qed.

Lemma list_remove_is_Some (x : string) (l : list string) :
  x ∈ l → is_Some (list_remove x l).
Proof.
  intros Hin. destruct (list_remove x l) eqn:Hr; [by eexists |].
  apply list_remove_None in Hr. done.
Qed.

Lemma list_remove_NoDup (x : string) (l r : list string) :
  NoDup l → list_remove x l = Some r → NoDup r ∧ x ∉ r.
Proof.
  intros Hnd Hr. apply list_remove_Some in Hr as (l1 & l2 & -> & -> & Hnot).
  apply NoDup_app in Hnd as (Hnd1 & Hdisj & Hnd2).
  apply NoDup_cons in Hnd2 as [Hx2 Hnd2]. split.
  - apply NoDup_app. split_and!; [done | | done].
    intros y Hy1 Hy2. apply (Hdisj y Hy1). by right.
  - rewrite not_elem_of_app. done.
Qed.

Lemma list_remove_subseteq (x : string) (l r : list string) :
  list_remove x l = Some r → ∀ y, y ∈ r → y ∈ l.
Proof.
  intros Hr y. apply list_remove_Some in Hr as (l1 & l2 & -> & -> & _).
  rewrite !elem_of_app, elem_of_cons. tauto.
Qed.

(** ** Each call keeps I1 and I2 *)

Lemma markas_playing_inv (name : string) (c : Controller) :
  I1 c → I2 c → I1 (markas_playing name c) ∧ I2 (markas_playing name c).
Proof.
  unfold I1, I2, markas_playing. intros H1 H2.
  destruct (list_remove name (not_playing c)) as [r|] eqn:Hr.
  - destruct (list_remove_NoDup _ _ _ H2 Hr) as [Hnd Hnot].
    pose proof (list_remove_subseteq _ _ _ Hr) as Hsub.
    case_decide; simpl; (split; [| done]); intros x Hx Hxr.
    + eapply H1; eauto.
    + apply elem_of_union in Hx as [Hx | Hx].
      * eapply H1; eauto.
      * apply elem_of_singleton in Hx. subst x. done.
  - apply list_remove_None in Hr.
    case_decide; simpl; (split; [| done]); intros x Hx Hxr.
    + eapply H1; eauto.
    + apply elem_of_union in Hx as [Hx | Hx].
      * eapply H1; eauto.
      * apply elem_of_singleton in Hx. subst x. done.
Qed.

Lemma markas_not_playing_inv (name : string) (c : Controller) :
  I1 c → I2 c →
  I1 (markas_not_playing name c) ∧ I2 (markas_not_playing name c).
Proof.
  unfold I1, I2, markas_not_playing. intros H1 H2.
  case_decide as Hin; simpl.
  - split; [| done]. intros x Hx Hxn.
    apply elem_of_difference in Hx as [Hx _]. eapply H1; eauto.
  - split.
    + intros x Hx Hxn. apply elem_of_difference in Hx as [Hx Hne].
      apply elem_of_app in Hxn as [Hxn | Hxn]; [eapply H1; eauto |].
      apply list_elem_of_singleton in Hxn. subst x.
      apply Hne. by apply elem_of_singleton.
    + apply NoDup_app. split_and!; [done | | apply NoDup_singleton].
      intros x Hx Hx'. apply list_elem_of_singleton in Hx'. by subst x.
Qed.

Lemma remove_inv (name : string) (c : Controller) :
  I1 c → I2 c → I1 (remove name c) ∧ I2 (remove name c).
Proof.
  unfold I1, I2, remove. intros H1 H2.
  destruct (list_remove name (not_playing c)) as [r|] eqn:Hr; [| done].
  destruct (list_remove_NoDup _ _ _ H2 Hr) as [Hnd Hnot].
  pose proof (list_remove_subseteq _ _ _ Hr) as Hsub. simpl.
  split; [| done]. intros x Hx Hxr.
  apply elem_of_difference in Hx as [Hx _]. eapply H1; eauto.
Qed.

Lemma apply_op_inv (o : Op) (c : Controller) :
  I1 c ∧ I2 c → I1 (apply_op c o) ∧ I2 (apply_op c o).
Proof.
  intros [H1 H2]. destruct o; simpl.
  - by apply markas_playing_inv.
  - by apply markas_not_playing_inv.
  - by apply remove_inv.
Qed.

Lemma run_inv (ops : list Op) (c : Controller) :
  I1 c ∧ I2 c → I1 (run ops c) ∧ I2 (run ops c).
Proof.
  revert c. induction ops as [|o ops IH]; intros c Hc; [done |].
  apply IH, apply_op_inv, Hc.
Qed.

Lemma init_inv : I1 init ∧ I2 init.
Proof.
  split.
  - intros x Hx _. by apply not_elem_of_empty in Hx.
  - apply NoDup_nil_2.
Qed.

(** C6: from the empty registry, after every call of every finite sequence
    of [markas_playing], [markas_not_playing] and [remove] calls (that is,
    after every prefix [take n ops] of the sequence), no identifier is in
    both [playing] and [not_playing] (I1) and [not_playing] holds no
    identifier twice (I2). *)
Theorem invariants_after_every_call (ops : list Op) (n : nat) :
  I1 (run (take n ops) init) ∧ I2 (run (take n ops) init).
Proof. apply run_inv, init_inv. Qed.

(** C7: when [id] is already in [not_playing], [markas_not_playing id]
    leaves the [not_playing] list as it is, so [id] stays at every position
    it had and is not moved to the tail, and [playing] is left without
    [id] (it is the old set minus [id]). *)
Theorem markas_not_playing_present (id : string) (c : Controller) :
  id ∈ not_playing c →
  not_playing (markas_not_playing id c) = not_playing c
  ∧ (∀ i, not_playing c !! i = Some id →
          not_playing (markas_not_playing id c) !! i = Some id)
  ∧ playing (markas_not_playing id c) = playing c ∖ {[id]}
  ∧ id ∉ playing (markas_not_playing id c).
Proof.
  intros Hin. unfold markas_not_playing.
  rewrite decide_True by done. simpl.
  split_and!; [done | done | done |].
  rewrite elem_of_difference, elem_of_singleton. tauto.
Qed.

(** C9: a properties-changed signal whose interface is not the
    media-player interface, or whose dictionary of changed properties has
    no [PlaybackStatus] key, leaves the controller, hence both [playing]
    and [not_playing], exactly as it was. *)
Theorem properties_changed_without_status
    (interface : string) (props : gmap string string) (sender : string)
    (c : Controller) :
  interface ≠ MPRIS_INTERFACE ∨ props !! "PlaybackStatus" = None →
  handle_signal_properties_changed interface props sender c = c
  ∧ playing (handle_signal_properties_changed interface props sender c)
    = playing c
  ∧ not_playing (handle_signal_properties_changed interface props sender c)
    = not_playing c.
Proof.
  intros Hcase.
  assert (handle_signal_properties_changed interface props sender c = c)
    as ->; [| done].
  unfold handle_signal_properties_changed.
  case_decide as Hi; [| done].
  destruct Hcase as [Hne | ->]; [done | done].
Qed.

Lemma markas_not_playing_present_witness :
  "A" ∈ not_playing {| playing := {["C"]}; not_playing := ["A"; "B"] |}
  ∧ not_playing (markas_not_playing "A"
       {| playing := {["C"]}; not_playing := ["A"; "B"] |}) = ["A"; "B"].
Proof.
  split; [by left |].
  apply (markas_not_playing_present "A"
           {| playing := {["C"]}; not_playing := ["A"; "B"] |}).
  by left.
Defined.

Lemma properties_changed_without_status_witness :
  ({["Volume" := "0.5"]} : gmap string string) !! "PlaybackStatus" = None
  ∧ handle_signal_properties_changed MPRIS_INTERFACE {["Volume" := "0.5"]}
      ":1.42" {| playing := {[":1.42"]}; not_playing := [":1.7"] |}
    = {| playing := {[":1.42"]}; not_playing := [":1.7"] |}.
Proof.
  split; [reflexivity |].
  apply (properties_changed_without_status MPRIS_INTERFACE
           {["Volume" := "0.5"]} ":1.42"
           {| playing := {[":1.42"]}; not_playing := [":1.7"] |}).
  right. reflexivity.
Defined.

(** ** [remove] *)

Lemma remove_absent_from_list (id : string) (c : Controller) :
  id ∉ not_playing c → remove id c = c.
Proof.
  intros Hnot. unfold remove.
  by rewrite (proj2 (list_remove_None id (not_playing c)) Hnot).
Qed.

Lemma remove_from_not_playing (id : string) (c : Controller) :
  I2 c → id ∈ not_playing c →
  (id ∉ not_playing (remove id c))
  ∧ playing (remove id c) = playing c ∖ {[id]}
  ∧ ∀ y, y ≠ id → (y ∈ not_playing (remove id c) ↔ y ∈ not_playing c).
Proof.
  intros Hnd Hin. unfold remove.
  destruct (list_remove_is_Some id _ Hin) as [r Hr]. rewrite Hr. cbn.
  destruct (list_remove_NoDup _ _ _ Hnd Hr) as [_ Hnot].
  split_and!; [done | done |]. intros y Hy.
  apply list_remove_Some in Hr as (l1 & l2 & -> & -> & _).
  rewrite !elem_of_app, elem_of_cons. tauto.
Qed.

Lemma filter_ne_absent (x : string) (l : list string) :
  x ∉ l → filter (λ y, y ≠ x) l = l.
Proof.
  induction l as [|y l IH]; [done |].
  rewrite not_elem_of_cons. intros [Hne Hnot].
  rewrite filter_cons_True by congruence. by rewrite IH.
Qed.

Lemma list_remove_filter (x : string) (l r : list string) :
  NoDup l → list_remove x l = Some r → r = filter (λ y, y ≠ x) l.
Proof.
  intros Hnd Hr. apply list_remove_Some in Hr as (l1 & l2 & -> & -> & Hnot1).
  apply NoDup_app in Hnd as (_ & _ & Hnd).
  apply NoDup_cons in Hnd as [Hnot2 _].
  rewrite filter_app, filter_cons_False by (intros Hxx; by apply Hxx).
  by rewrite !filter_ne_absent.
Qed.

(** What does hold of [remove]: on a registry that satisfies I1 and I2, a
    [markas_playing] or [markas_not_playing] of [id] after [remove id]
    gives the state it gives on the registry that never saw [id]. *)
Lemma remove_then_mark_as_fresh (id : string) (c : Controller) :
  I1 c → I2 c →
  markas_playing id (remove id c) = markas_playing id (forget id c)
  ∧ markas_not_playing id (remove id c) = markas_not_playing id (forget id c).
Proof.
  intros H1 H2. destruct (decide (id ∈ not_playing c)) as [Hin | Hnot].
  - assert (remove id c = forget id c) as ->; [| done].
    unfold remove, forget.
    destruct (list_remove_is_Some id _ Hin) as [r Hr]. rewrite Hr.
    by rewrite (list_remove_filter _ _ _ H2 Hr).
  - rewrite remove_absent_from_list by done.
    unfold forget. rewrite filter_ne_absent by done.
    unfold markas_playing, markas_not_playing. cbn.
    rewrite (proj2 (list_remove_None id (not_playing c)) Hnot).
    rewrite !(decide_False (P := id ∈ not_playing c)) by done.
    rewrite (decide_False (P := id ∈ playing c ∖ {[id]}))
      by (rewrite elem_of_difference, elem_of_singleton; tauto).
    split.
    + case_decide as Hp; f_equal; apply set_eq; intros x;
        rewrite !elem_of_union, !elem_of_difference, !elem_of_singleton;
        destruct (decide (x = id)) as [-> |]; tauto.
    + f_equal. apply set_eq. intros x.
      rewrite !elem_of_difference, !elem_of_singleton. tauto.
Qed.

(** C3: on the registry whose [playing] is the set holding only ["A"] and
    whose [not_playing] is empty, [remove "A"] changes nothing, and neither
    does the name-owner signal that reports ["A"] gone: ["A"] is still a
    member of [playing] afterwards, although C3 has it deleted from the
    container that holds it. *)
Theorem remove_keeps_playing_member :
  remove "A" {| playing := {["A"]}; not_playing := [] |}
  = {| playing := {["A"]}; not_playing := [] |}
  ∧ handle_signal_name_change "A" "A" ""
      {| playing := {["A"]}; not_playing := [] |}
    = {| playing := {["A"]}; not_playing := [] |}
  ∧ "A" ∈ playing (remove "A" {| playing := {["A"]}; not_playing := [] |}).
Proof.
  unfold handle_signal_name_change. rewrite decide_True by done.
  rewrite remove_absent_from_list by apply not_elem_of_nil.
  split_and!; [reflexivity | reflexivity |].
  cbn [playing]. by apply elem_of_singleton.
Qed.

End RegistryFacts.

(** * Properties of the exported methods *)

Module DispatchFacts.
Import Registry Dispatch.

Section facts.

Variable bus : string → string → bool.
Variable set_iter : gset string → list string.

(** Iterating over a set visits every member once. *)
Hypothesis set_iter_perm : ∀ s, set_iter s ≡ₚ elements s.

Lemma set_iter_NoDup (s : gset string) : NoDup (set_iter s).
Proof. rewrite set_iter_perm. apply NoDup_elements. Qed.

Lemma set_iter_singleton (p : string) : set_iter {[p]} = [p].
Proof.
  apply Permutation_singleton_r.
  rewrite set_iter_perm. by rewrite elements_singleton.
Qed.

(** ** The loop of [call_on_all_playing] *)

Lemma for_each_cons (m : string) (n : string) (l : list string)
    (c : Controller) :
  for_each (n :: l) (λ n, remote_call bus n m) c
  = if bus n m
    then let r := for_each l (λ n, remote_call bus n m) c in
         mkRun (final r) ((n, m) :: sent r) (outcome r)
    else mkRun c [(n, m)] (Raise DBusException).
Proof.
  cbn [for_each]. unfold mbind, M_bind, remote_call at 1.
  cbn [outcome final sent]. by destruct (bus n m).
Qed.

Lemma for_each_returns (m : string) (l : list string) (c : Controller) :
  (∀ n, n ∈ l → bus n m = true) →
  for_each l (λ n, remote_call bus n m) c = mkRun c (call_of m <$> l) (Ok ()).
Proof.
  induction l as [|n l IH]; intros Hok; [done |].
  rewrite for_each_cons, (Hok n) by left.
  rewrite IH; [done |]. intros n' Hn'. apply Hok. by right.
Qed.

Lemma for_each_raises (m : string) (l1 : list string) (p : string)
    (l2 : list string) (c : Controller) :
  (∀ n, n ∈ l1 → bus n m = true) →
  bus p m = false →
  for_each (l1 ++ p :: l2) (λ n, remote_call bus n m) c
  = mkRun c (call_of m <$> (l1 ++ [p])) (Raise DBusException).
Proof.
  induction l1 as [|n l1 IH]; intros Hok Hp.
  - cbn [app]. by rewrite for_each_cons, Hp.
  - cbn [app]. rewrite for_each_cons, (Hok n) by left.
    rewrite IH; [done | | done]. intros n' Hn'. apply Hok. by right.
Qed.

Lemma for_each_final (m : string) (l : list string) (c : Controller) :
  final (for_each l (λ n, remote_call bus n m) c) = c.
Proof.
  induction l as [|n l IH]; [done |].
  rewrite for_each_cons. by destruct (bus n m).
Qed.

Lemma call_on_all_playing_eq (m : string) (c : Controller) :
  call_on_all_playing bus set_iter m c
  = (let r := for_each (set_iter (playing c)) (λ n, remote_call bus n m) c in
     mkRun (final r) (sent r) (outcome r)).
Proof. done. Qed.

Lemma PlayPause_playing (c : Controller) :
  playing c ≠ ∅ →
  PlayPause bus set_iter c
  = for_each (set_iter (playing c)) (λ n, remote_call bus n "Pause") c.
Proof.
  intros Hne. unfold PlayPause, mbind, M_bind, get_self. cbn.
  assert (0 < size (playing c)) as Hpos.
  { destruct (decide (size (playing c) = 0)) as [H0|]; [| lia].
    apply size_empty_iff in H0. by apply leibniz_equiv in H0. }
  rewrite decide_True by done.
  rewrite call_on_all_playing_eq. cbn.
  by destruct (for_each _ _ c).
Qed.

Lemma PlayPause_idle (c : Controller) :
  playing c = ∅ →
  PlayPause bus set_iter c
  = match last (not_playing c) with
    | Some n => remote_call bus n "Play" c
    | None => mkRun c [] (Ok ())
    end.
Proof.
  intros He. unfold PlayPause, mbind, M_bind, get_self. cbn.
  rewrite He, size_empty. rewrite decide_False by lia.
  unfold call_on_head_not_playing, mbind, M_bind, get_self. cbn.
  destruct (not_playing c) as [|x l] eqn:Hl using rev_ind.
  - cbn. by rewrite decide_False by lia.
  - rewrite decide_True by (rewrite length_app; cbn; lia).
    rewrite last_snoc. cbn. unfold remote_call.
    by destruct (bus x "Play").
Qed.

Lemma for_each_sent_prefix (m : string) (l : list string) (c : Controller) :
  sent (for_each l (λ n, remote_call bus n m) c) `prefix_of` call_of m <$> l.
Proof.
  induction l as [|n l IH]; [apply prefix_nil |].
  rewrite for_each_cons. destruct (bus n m); cbn.
  - by apply prefix_cons.
  - apply prefix_cons, prefix_nil.
Qed.

#[local] Instance call_of_inj (m : string) : Inj (=) (=) (call_of m).
Proof. intros x y [= ->]. done. Qed.

(** C1, as amended: [PlayPause] with a non-empty [playing] issues Pause
    calls only, only to members of [playing], and never two to the same
    member; when
    the Pause calls to the playing players return, every member of
    [playing] receives one (the calls issued are a permutation of one Pause
    call per member). With an empty [playing] and a non-empty [not_playing]
    it issues a single call, Play on the last element of [not_playing]. *)
Theorem PlayPause_targets (c : Controller) :
  (playing c ≠ ∅ →
     (∀ q m, (q, m) ∈ sent (PlayPause bus set_iter c) →
             q ∈ playing c ∧ m = "Pause")
     ∧ NoDup (sent (PlayPause bus set_iter c))
     ∧ ((∀ p, p ∈ playing c → bus p "Pause" = true) →
        sent (PlayPause bus set_iter c)
        ≡ₚ call_of "Pause" <$> elements (playing c)
        ∧ ∀ p, p ∈ playing c →
               (p, "Pause") ∈ sent (PlayPause bus set_iter c)))
  ∧ (playing c = ∅ → not_playing c ≠ [] →
     ∃ z, last (not_playing c) = Some z
          ∧ sent (PlayPause bus set_iter c) = [(z, "Play")]).
Proof.
  split.
  - intros Hne. rewrite PlayPause_playing by done.
    pose proof (for_each_sent_prefix "Pause" (set_iter (playing c)) c)
      as [k Hk].
    split_and!.
    + intros q m Hin.
      assert ((q, m) ∈ call_of "Pause" <$> set_iter (playing c)) as Hin'.
      { rewrite Hk. apply elem_of_app. by left. }
      apply list_elem_of_fmap in Hin' as (q' & [= -> ->] & Hq').
      rewrite set_iter_perm in Hq'. by apply elem_of_elements in Hq'.
    + pose proof (NoDup_fmap_2 (call_of "Pause") _
                    (set_iter_NoDup (playing c))) as Hnd.
      rewrite Hk in Hnd. by apply NoDup_app in Hnd as [Hnd _].
    + intros Hok. rewrite for_each_returns.
      * cbn [sent]. split; [by rewrite set_iter_perm |].
        intros p Hp. apply (list_elem_of_fmap_2 (call_of "Pause")).
        rewrite set_iter_perm. by apply elem_of_elements.
      * intros n Hn. apply Hok. rewrite set_iter_perm in Hn.
        by apply elem_of_elements in Hn.
  - intros He Hnp. rewrite PlayPause_idle by done.
    destruct (not_playing c) as [|x l] using rev_ind; [done |].
    rewrite last_snoc. by exists x.
Qed.

(** C2, as amended: the Pause calls of a broadcast are issued one after
    another in the iteration order of the set, with nothing catching a
    failed call. When the call to member [p] fails, the members visited
    before [p] have received their Pause call, the method is left with
    [DBusException] right after the failed call, and the members that come
    after [p] in the iteration receive no call. *)
Theorem broadcast_stops_at_failure
    (c : Controller) (l1 : list string) (p : string) (l2 : list string) :
  set_iter (playing c) = l1 ++ p :: l2 →
  (∀ q, q ∈ l1 → bus q "Pause" = true) →
  bus p "Pause" = false →
  PlayPause bus set_iter c
  = mkRun c (call_of "Pause" <$> (l1 ++ [p])) (Raise DBusException)
  ∧ (∀ q, q ∈ l1 → (q, "Pause") ∈ sent (PlayPause bus set_iter c))
  ∧ (∀ q, q ∈ l2 → (q, "Pause") ∉ sent (PlayPause bus set_iter c)).
Proof.
  intros Hiter Hok Hp.
  assert (playing c ≠ ∅) as Hne.
  { intros He. pose proof (set_iter_perm (playing c)) as Hperm.
    rewrite Hiter, He, elements_empty in Hperm.
    apply Permutation_nil_r in Hperm. by destruct l1. }
  rewrite PlayPause_playing by done.
  rewrite Hiter, for_each_raises by done. cbn [sent].
  split_and!; [done | |].
  - intros q Hq. apply (list_elem_of_fmap_2 (call_of "Pause")).
    apply elem_of_app. by left.
  - intros q Hq Hin. apply list_elem_of_fmap in Hin as (q' & [= <-] & Hq').
    pose proof (set_iter_NoDup (playing c)) as Hnd. rewrite Hiter in Hnd.
    apply NoDup_app in Hnd as (_ & Hdisj & Hnd).
    apply NoDup_cons in Hnd as [Hp2 _].
    apply elem_of_app in Hq' as [Hq' | Hq'].
    + apply (Hdisj q Hq'). by right.
    + apply list_elem_of_singleton in Hq'. by subst q.
Qed.

(** C5: [Next] and [Previous] issue their call when [playing] has exactly
    one member, to that member and only once; when [playing] is empty or
    has two or more members they issue no call at all. *)
Theorem Next_Previous_single_target (c : Controller) :
  (size (playing c) = 1 →
     ∃ p, playing c = {[p]}
          ∧ sent (Next bus set_iter c) = [(p, "Next")]
          ∧ sent (Previous bus set_iter c) = [(p, "Previous")])
  ∧ (size (playing c) ≠ 1 →
     sent (Next bus set_iter c) = []
     ∧ sent (Previous bus set_iter c) = []).
Proof.
  split.
  - intros H1. destruct (size_1_elem_of (playing c) H1) as [p Hp].
    apply leibniz_equiv in Hp. exists p. split; [done |].
    unfold Next, Previous, call_on_one_playing, mbind, M_bind, get_self. cbn.
    rewrite !decide_True by done.
    rewrite !call_on_all_playing_eq. cbn.
    rewrite Hp, set_iter_singleton. cbn.
    unfold mbind, M_bind, remote_call. cbn.
    split; [by destruct (bus p "Next") | by destruct (bus p "Previous")].
  - intros Hn.
    unfold Next, Previous, call_on_one_playing, mbind, M_bind, get_self. cbn.
    by rewrite !decide_False by done.
Qed.

(** C10: with [playing] and [not_playing] both empty, [PlayPause] issues no
    outbound call, returns, and leaves the controller as it was. *)
Theorem PlayPause_nothing_known (c : Controller) :
  playing c = ∅ → not_playing c = [] →
  PlayPause bus set_iter c = mkRun c [] (Ok ())
  ∧ sent (PlayPause bus set_iter c) = []
  ∧ final (PlayPause bus set_iter c) = c.
Proof.
  intros He Hnp. rewrite PlayPause_idle by done. by rewrite Hnp.
Qed.

End facts.

(** The registry is only read by the methods. *)
Lemma PlayPause_final (bus : string → string → bool)
    (set_iter : gset string → list string) (c : Controller) :
  final (PlayPause bus set_iter c) = c.
Proof.
  destruct (decide (playing c = ∅)) as [He | Hne].
  - rewrite PlayPause_idle by done.
    destruct (last (not_playing c)); [| done].
    unfold remote_call. by destruct (bus _ _).
  - rewrite PlayPause_playing by done. apply for_each_final.
Qed.

(** ** Runs on concrete registries *)

Lemma elements_perm (s : gset string) : elements s ≡ₚ elements s.
Proof. reflexivity. Defined.

Lemma playing_A_B_nonempty : playing playing_A_B ≠ ∅.
Proof.
  intros He. apply (f_equal size) in He. vm_compute in He. discriminate.
Defined.

Lemma PlayPause_targets_witness :
  (∀ s : gset string, elements s ≡ₚ elements s)
  ∧ playing playing_A_B ≠ ∅
  ∧ (∀ p, p ∈ playing playing_A_B → all_reachable p "Pause" = true)
  ∧ sent (PlayPause all_reachable elements playing_A_B)
    ≡ₚ call_of "Pause" <$> elements (playing playing_A_B).
Proof.
  split; [exact elements_perm |].
  split; [exact playing_A_B_nonempty |].
  split; [reflexivity |].
  apply (PlayPause_targets all_reachable elements elements_perm playing_A_B).
  - exact playing_A_B_nonempty.
  - reflexivity.
Defined.

Example PlayPause_pauses_A_and_B :
  sent (PlayPause all_reachable elements playing_A_B)
  = [("A", "Pause"); ("B", "Pause")].
Proof. vm_compute. reflexivity. Qed.

Example PlayPause_plays_Z_only :
  PlayPause all_reachable elements
    {| playing := ∅; not_playing := ["X"; "Y"; "Z"] |}
  = mkRun {| playing := ∅; not_playing := ["X"; "Y"; "Z"] |}
          [("Z", "Play")] (Ok ()).
Proof. vm_compute. reflexivity. Qed.

(** C1 as stated does not hold: [playing] holds ["A"] and ["B"] and is
    not empty, the loop visits ["A"] first and the Pause call to ["A"]
    raises [DBusException]; [PlayPause] then has not sent a Pause call to
    every member of [playing], ["B"] got none. *)
Lemma PlayPause_skips_member :
  ¬ (playing playing_A_B ≠ ∅ →
     ∀ p, p ∈ playing playing_A_B →
          (p, "Pause") ∈ sent (PlayPause A_unreachable elements playing_A_B)).
Proof.
  intros Hall.
  assert ("B" ∈ playing playing_A_B) as HB
    by (apply elem_of_union; right; by apply elem_of_singleton).
  specialize (Hall playing_A_B_nonempty "B" HB).
  vm_compute in Hall.
  apply list_elem_of_singleton in Hall. discriminate.
Qed.

(** C2 as stated does not hold: [playing] holds ["A"] and ["B"], the loop
    visits ["A"] first, and the Pause call to ["A"] raises [DBusException];
    the other member ["B"] then receives no call. *)
Lemma broadcast_not_isolated :
  ¬ (∀ p, p ∈ playing playing_A_B →
          A_unreachable p "Pause" = false →
          ∀ q, q ∈ playing playing_A_B → q ≠ p →
               (q, "Pause") ∈ sent (PlayPause A_unreachable elements playing_A_B)).
Proof.
  intros Hiso.
  assert ("A" ∈ playing playing_A_B) as HA
    by (apply elem_of_union; left; by apply elem_of_singleton).
  assert ("B" ∈ playing playing_A_B) as HB
    by (apply elem_of_union; right; by apply elem_of_singleton).
  specialize (Hiso "A" HA eq_refl "B" HB ltac:(done)).
  vm_compute in Hiso.
  apply list_elem_of_singleton in Hiso. discriminate.
Qed.

Lemma broadcast_stops_at_failure_witness :
  elements (playing playing_A_B) = [] ++ "A" :: ["B"]
  ∧ A_unreachable "A" "Pause" = false
  ∧ PlayPause A_unreachable elements playing_A_B
    = mkRun playing_A_B [("A", "Pause")] (Raise DBusException).
Proof.
  split; [vm_compute; reflexivity |]. split; [reflexivity |].
  apply (broadcast_stops_at_failure A_unreachable elements elements_perm
           playing_A_B [] "A" ["B"]).
  - vm_compute. reflexivity.
  - intros q Hq. exfalso. revert Hq. apply not_elem_of_nil.
  - reflexivity.
Defined.

Lemma Next_Previous_single_target_witness :
  (∀ s : gset string, elements s ≡ₚ elements s)
  ∧ (size (playing {| playing := {["A"]}; not_playing := [] |}) = 1 →
     ∃ p, playing {| playing := {["A"]}; not_playing := [] |} = {[p]}
          ∧ sent (Next all_reachable elements
                    {| playing := {["A"]}; not_playing := [] |})
            = [(p, "Next")]
          ∧ sent (Previous all_reachable elements
                    {| playing := {["A"]}; not_playing := [] |})
            = [(p, "Previous")]).
Proof.
  split; [exact elements_perm |].
  apply (Next_Previous_single_target all_reachable elements elements_perm
           {| playing := {["A"]}; not_playing := [] |}).
Defined.

Example Next_one_playing :
  sent (Next all_reachable elements {| playing := {["A"]}; not_playing := ["X"] |})
  = [("A", "Next")].
Proof. vm_compute. reflexivity. Qed.

Example Next_two_playing :
  sent (Next all_reachable elements playing_A_B) = [].
Proof. vm_compute. reflexivity. Qed.

Example Next_none_playing :
  sent (Next all_reachable elements {| playing := ∅; not_playing := ["X"] |})
  = [].
Proof. vm_compute. reflexivity. Qed.

Lemma PlayPause_nothing_known_witness :
  playing init = ∅ ∧ not_playing init = []
  ∧ PlayPause all_reachable elements init = mkRun init [] (Ok ()).
Proof.
  split; [reflexivity |]. split; [reflexivity |].
  apply (PlayPause_nothing_known all_reachable elements init);
    reflexivity.
Defined.

End DispatchFacts.

(** * Properties of the client bootstrap *)

Module BootstrapFacts.
Import Bootstrap.

Lemma timeout_trace_no_call (m : string) (ok : bool) :
  CallMethod m ok ∉ timeout_trace.
Proof.
  unfold timeout_trace. intros Hin.
  repeat (apply elem_of_cons in Hin as [Hin | Hin]; [discriminate |]).
  by apply not_elem_of_nil in Hin.
Qed.

Ltac run_client :=
  repeat (progress (cbn;
    unfold mbind, P_bind, mret, P_ret, _daemon_up, sleep, emit, exit, halt,
           _fork_daemon, _call_method, _start_daemon)).

Ltac next_probe :=
  match goal with
  | |- context [name_has_owner ?b ?k] =>
      let E := fresh "Hup" in
      destruct (name_has_owner b k) eqn:E; run_client
  end.

(** C8: on the path that forks a detached daemon (the first probe finds no
    owner, neither [nofork] nor [--no-fork] is set), the sleeps between the
    ownership checks are 0.2, 0.3, 0.4, 0.4, 1.2, 2.3 seconds in that
    order, one before each check made after the fork; when none of the six
    checks finds an owner, all six waits have been made, the process ends
    with [exit(1)] after the error line, and its trace holds no method call
    on the daemon. *)
Theorem bootstrap_gives_up (bus : SessionBus) (args : Args) :
  no_fork args = false →
  name_has_owner bus 0 = false →
  waits_between_checks (trace (proc_of (entry_point bus args false start)))
  = take (probes (proc_of (entry_point bus args false start)) - 1)
         wait_schedule
  ∧ ((∀ k : nat, (1 ≤ k ≤ 6)%nat → name_has_owner bus k = false) →
     entry_point bus args false start
     = Halt (SystemExit 1) {| probes := 7; trace := timeout_trace |}
     ∧ waits_between_checks
         (trace (proc_of (entry_point bus args false start)))
       = wait_schedule
     ∧ ∀ m ok,
         CallMethod m ok
         ∉ trace (proc_of (entry_point bus args false start))).
Proof.
  intros Hnf H0. split.
  - unfold entry_point, _parse_args. rewrite Hnf. run_client.
    rewrite H0, Hnf. run_client.
    repeat next_probe.
    all: destruct (call args) as [m|]; run_client.
    all: try (destruct (daemon_call bus m) as [|[] ex]; run_client).
    all: reflexivity.
  - intros Hdown.
    assert (entry_point bus args false start
            = Halt (SystemExit 1) {| probes := 7; trace := timeout_trace |})
      as ->.
    { unfold entry_point, _parse_args. rewrite Hnf. run_client.
      rewrite H0, Hnf. run_client.
      repeat (rewrite Hdown by lia; run_client). reflexivity. }
    split_and!; [done | done |]. intros m ok. apply timeout_trace_no_call.
Qed.

Lemma bootstrap_gives_up_witness :
  no_fork (mkArgs (Some "PlayPause") false false) = false
  ∧ name_has_owner dead_bus 0 = false
  ∧ waits_between_checks
      (trace (proc_of (entry_point dead_bus
                         (mkArgs (Some "PlayPause") false false) false start)))
    = wait_schedule.
Proof.
  split; [reflexivity |]. split; [reflexivity |].
  apply (bootstrap_gives_up dead_bus (mkArgs (Some "PlayPause") false false));
    reflexivity.
Defined.

Example bootstrap_dead_bus :
  entry_point dead_bus (mkArgs (Some "PlayPause") false false) false start
  = Halt (SystemExit 1) {| probes := 7; trace := timeout_trace |}.
Proof. vm_compute. reflexivity. Qed.

(** C4: [entry_point(["PlayPause"], nofork=True)] with no daemon on the
    bus registers the callback with [timeout_add(400, _callback)] and runs
    the main loop; whatever the counter and whatever the bus, a firing of
    that callback raises [TypeError] at its call of [_call_method], which
    lacks the method name: it returns neither [True] nor [False], and no
    call reaches the daemon (the trace of the process is left as it was). *)
Theorem callback_raises_TypeError :
  entry_point dead_bus (mkArgs (Some "PlayPause") false false) true start
  = Halt MainLoopRuns
      {| probes := 1;
         trace := [NameHasOwner false; TimeoutAdd 400; StartDaemon] |}
  ∧ ∀ (bus : SessionBus) (count : Z) (p : Proc),
      _callback bus count p = Halt (Uncaught TypeError) p.
Proof. split; [vm_compute |]; reflexivity. Qed.

End BootstrapFacts.

(** * More on the registry: how the calls compose *)

Module RegistryLaws.
Import Registry RegistryFacts.

Lemma list_remove_keeps_others (x : string) (l r : list string) :
  list_remove x l = Some r →
  filter (λ y, y ≠ x) r = filter (λ y, y ≠ x) l.
Proof.
  intros Hr. apply list_remove_Some in Hr as (l1 & l2 & -> & -> & _).
  rewrite !filter_app. f_equal.
  by rewrite filter_cons_False by (intros Hxx; by apply Hxx).
Qed.

Lemma difference_twice (s : gset string) (x : string) :
  s ∖ {[x]} ∖ {[x]} = s ∖ {[x]}.
Proof.
  apply set_eq. intros y.
  rewrite !elem_of_difference, !elem_of_singleton. tauto.
Qed.

Lemma union_difference_singleton (s : gset string) (x : string) :
  (s ∪ {[x]}) ∖ {[x]} = s ∖ {[x]}.
Proof.
  apply set_eq. intros y.
  rewrite !elem_of_difference, elem_of_union, !elem_of_singleton. tauto.
Qed.

Lemma difference_absent (s : gset string) (x : string) :
  x ∉ s → s ∖ {[x]} = s.
Proof.
  intros Hx. apply set_eq. intros y.
  rewrite elem_of_difference, elem_of_singleton.
  split; [tauto |]. intros Hy. split; [done |]. by intros ->.
Qed.

(** The state after a player went from playing to not playing. *)
Lemma playing_then_not_playing (id : string) (c : Controller) :
  I2 c →
  markas_not_playing id (markas_playing id c)
  = {| playing := playing c ∖ {[id]};
       not_playing := filter (λ y, y ≠ id) (not_playing c) ++ [id] |}.
Proof.
  intros H2. unfold markas_playing.
  destruct (list_remove id (not_playing c)) as [r|] eqn:Hr.
  - destruct (list_remove_NoDup _ _ _ H2 Hr) as [_ Hnot].
    rewrite <- (list_remove_filter _ _ _ H2 Hr).
    case_decide; unfold markas_not_playing; cbn;
      rewrite decide_False by done; f_equal.
    apply union_difference_singleton.
  - apply list_remove_None in Hr. rewrite filter_ne_absent by done.
    case_decide; unfold markas_not_playing; cbn;
      rewrite decide_False by done; f_equal.
    apply union_difference_singleton.
Qed.

Lemma markas_playing_in (id : string) (c : Controller) :
  id ∈ playing (markas_playing id c).
Proof.
  unfold markas_playing. case_decide; cbn; [done |].
  apply elem_of_union. right. by apply elem_of_singleton.
Qed.

Lemma markas_playing_out (id : string) (c : Controller) :
  I2 c → id ∉ not_playing (markas_playing id c).
Proof.
  intros H2. unfold markas_playing.
  destruct (list_remove id (not_playing c)) as [r|] eqn:Hr.
  - destruct (list_remove_NoDup _ _ _ H2 Hr) as [_ Hnot]. by case_decide.
  - apply list_remove_None in Hr. by case_decide.
Qed.

Lemma markas_not_playing_in (id : string) (c : Controller) :
  id ∈ not_playing (markas_not_playing id c).
Proof.
  unfold markas_not_playing. case_decide; cbn; [done |].
  apply elem_of_app. right. by apply list_elem_of_singleton.
Qed.

Lemma markas_not_playing_out (id : string) (c : Controller) :
  id ∉ playing (markas_not_playing id c).
Proof.
  unfold markas_not_playing. case_decide; cbn;
    rewrite elem_of_difference, elem_of_singleton; tauto.
Qed.

(** X1: on a registry without duplicates in [not_playing], after
    [markas_playing id] the identifier is in [playing] and no longer in
    [not_playing], and a second [markas_playing id] changes nothing. *)
Theorem markas_playing_idempotent (id : string) (c : Controller) :
  I2 c →
  id ∈ playing (markas_playing id c)
  ∧ (id ∉ not_playing (markas_playing id c))
  ∧ markas_playing id (markas_playing id c) = markas_playing id c.
Proof.
  intros H2.
  pose proof (markas_playing_in id c) as Hin.
  pose proof (markas_playing_out id c H2) as Hout.
  split_and!; [done | done |].
  unfold markas_playing at 1.
  rewrite (proj2 (list_remove_None _ _) Hout).
  rewrite decide_True by done. by destruct (markas_playing id c).
Qed.

(** X2: after [markas_not_playing id] the identifier is in [not_playing]
    and not in [playing], and a second [markas_not_playing id] changes
    nothing; this holds on every registry. *)
Theorem markas_not_playing_idempotent (id : string) (c : Controller) :
  (id ∉ playing (markas_not_playing id c))
  ∧ id ∈ not_playing (markas_not_playing id c)
  ∧ markas_not_playing id (markas_not_playing id c) = markas_not_playing id c.
Proof.
  pose proof (markas_not_playing_in id c) as Hin.
  split_and!; [apply markas_not_playing_out | done |].
  unfold markas_not_playing at 1. rewrite decide_True by done.
  unfold markas_not_playing. case_decide; cbn; by rewrite difference_twice.
Qed.

(** X3: a call about [id], whichever of the three it is, leaves every other
    identifier where it was: [playing] is the same apart from [id], and the
    other identifiers of [not_playing] keep their order. *)
Theorem calls_leave_others (id : string) (c c' : Controller) :
  c' = markas_playing id c ∨ c' = markas_not_playing id c ∨ c' = remove id c →
  playing c' ∖ {[id]} = playing c ∖ {[id]}
  ∧ filter (λ y, y ≠ id) (not_playing c')
    = filter (λ y, y ≠ id) (not_playing c).
Proof.
  intros [-> | [-> | ->]].
  - unfold markas_playing.
    destruct (list_remove id (not_playing c)) as [r|] eqn:Hr;
      case_decide; cbn; split;
      try done; try apply union_difference_singleton;
      by apply list_remove_keeps_others.
  - unfold markas_not_playing. case_decide; cbn; split;
      try apply difference_twice; [done |].
    rewrite filter_app, filter_cons_False by (intros Hxx; by apply Hxx).
    by rewrite filter_nil, app_nil_r.
  - unfold remove.
    destruct (list_remove id (not_playing c)) as [r|] eqn:Hr; cbn; [| done].
    split; [apply difference_twice | by apply list_remove_keeps_others].
Qed.

(** X4: when a player goes from playing to not playing, it becomes the
    last element of [not_playing], wherever it was before, and the other
    identifiers keep their order in front of it. *)
Theorem demoted_player_goes_last (id : string) (c : Controller) :
  I2 c →
  not_playing (markas_not_playing id (markas_playing id c))
  = filter (λ y, y ≠ id) (not_playing c) ++ [id]
  ∧ last (not_playing (markas_not_playing id (markas_playing id c)))
    = Some id
  ∧ playing (markas_not_playing id (markas_playing id c))
    = playing c ∖ {[id]}.
Proof.
  intros H2. rewrite playing_then_not_playing by done. cbn.
  by rewrite last_snoc.
Qed.

(** X5: a player that is last in [not_playing] and starts playing, then
    stops again, leaves the registry exactly as it was. *)
Theorem play_pause_round_trip (id : string) (c : Controller) :
  I2 c → id ∉ playing c → last (not_playing c) = Some id →
  markas_not_playing id (markas_playing id c) = c.
Proof.
  intros H2 Hp Hlast. rewrite playing_then_not_playing by done.
  destruct c as [pl np]. cbn in *. f_equal.
  - by apply difference_absent.
  - destruct np as [|x l] using rev_ind; [done |].
    rewrite last_snoc in Hlast. injection Hlast as ->.
    apply NoDup_app in H2 as (_ & Hdisj & _).
    rewrite filter_app, filter_cons_False by (intros Hxx; by apply Hxx).
    rewrite filter_nil, app_nil_r, filter_ne_absent; [done |].
    intros Hin. apply (Hdisj id Hin). by apply list_elem_of_singleton.
Qed.

(** X6: on a registry without duplicates in [not_playing], [remove id] of
    an identifier held by [not_playing] erases it: the result is the
    registry that never saw [id], with [id] in neither container. *)
Theorem remove_erases_idle_player (id : string) (c : Controller) :
  I2 c → id ∈ not_playing c →
  remove id c = forget id c
  ∧ (id ∉ playing (remove id c))
  ∧ (id ∉ not_playing (remove id c)).
Proof.
  intros H2 Hin. unfold remove, forget.
  destruct (list_remove_is_Some id _ Hin) as [r Hr]. rewrite Hr. cbn.
  destruct (list_remove_NoDup _ _ _ H2 Hr) as [_ Hnot].
  rewrite <- (list_remove_filter _ _ _ H2 Hr).
  split_and!; [done | | done].
  rewrite elem_of_difference, elem_of_singleton. tauto.
Qed.

(** X7: after a properties-changed signal of the media-player interface
    that carries a [PlaybackStatus], on a registry without duplicates in
    [not_playing], the sender is in [playing] exactly when the status is
    ["Playing"] and in [not_playing] exactly when it is anything else. *)
Theorem status_signal_classifies_sender
    (props : gmap string string) (status sender : string) (c : Controller) :
  I2 c → props !! "PlaybackStatus" = Some status →
  (sender ∈ playing
     (handle_signal_properties_changed MPRIS_INTERFACE props sender c)
   ↔ status = "Playing")
  ∧ (sender ∈ not_playing
       (handle_signal_properties_changed MPRIS_INTERFACE props sender c)
     ↔ status ≠ "Playing").
Proof.
  intros H2 Hst. unfold handle_signal_properties_changed.
  rewrite decide_True by done. rewrite Hst.
  case_decide as Hs.
  - pose proof (markas_playing_in sender c).
    pose proof (markas_playing_out sender c H2). tauto.
  - pose proof (markas_not_playing_in sender c).
    pose proof (markas_not_playing_out sender c). tauto.
Qed.

(** ** The laws on a concrete registry *)

Ltac by_decide :=
  match goal with
  | |- ?P => apply (bool_decide_unpack P); vm_compute; exact I
  end.

Lemma I2_C_over_A_B : I2 Samples.C_over_A_B.
Proof. unfold I2. by_decide. Defined.

Lemma I2_idle_A_B : I2 Samples.idle_A_B.
Proof. unfold I2. by_decide. Defined.

Lemma markas_playing_idempotent_witness :
  I2 Samples.C_over_A_B
  ∧ markas_playing "A" (markas_playing "A" Samples.C_over_A_B)
    = markas_playing "A" Samples.C_over_A_B.
Proof.
  split; [exact I2_C_over_A_B |].
  apply (markas_playing_idempotent "A" Samples.C_over_A_B I2_C_over_A_B).
Defined.

Lemma calls_leave_others_witness :
  (remove "A" Samples.C_over_A_B = markas_playing "A" Samples.C_over_A_B
   ∨ remove "A" Samples.C_over_A_B
     = markas_not_playing "A" Samples.C_over_A_B
   ∨ remove "A" Samples.C_over_A_B = remove "A" Samples.C_over_A_B)
  ∧ filter (λ y, y ≠ "A") (not_playing (remove "A" Samples.C_over_A_B))
    = filter (λ y, y ≠ "A") (not_playing Samples.C_over_A_B).
Proof.
  split; [right; right; reflexivity |].
  apply (calls_leave_others "A" Samples.C_over_A_B
           (remove "A" Samples.C_over_A_B)).
  right. right. reflexivity.
Defined.

Lemma demoted_player_goes_last_witness :
  I2 Samples.C_over_A_B
  ∧ last (not_playing (markas_not_playing "A"
                         (markas_playing "A" Samples.C_over_A_B)))
    = Some "A".
Proof.
  split; [exact I2_C_over_A_B |].
  apply (demoted_player_goes_last "A" Samples.C_over_A_B I2_C_over_A_B).
Defined.

Example demoted_A_goes_behind_B :
  not_playing (markas_not_playing "A" (markas_playing "A" Samples.C_over_A_B))
  = ["B"; "A"].
Proof. vm_compute. reflexivity. Qed.

Lemma play_pause_round_trip_witness :
  I2 Samples.C_over_A_B
  ∧ ("B" ∉ playing Samples.C_over_A_B)
  ∧ last (not_playing Samples.C_over_A_B) = Some "B"
  ∧ markas_not_playing "B" (markas_playing "B" Samples.C_over_A_B)
    = Samples.C_over_A_B.
Proof.
  assert ("B" ∉ playing Samples.C_over_A_B) as Hout by by_decide.
  split; [exact I2_C_over_A_B |]. split; [exact Hout |].
  split; [reflexivity |].
  apply (play_pause_round_trip "B" Samples.C_over_A_B I2_C_over_A_B Hout).
  reflexivity.
Defined.

Lemma remove_erases_idle_player_witness :
  I2 Samples.C_over_A_B
  ∧ "A" ∈ not_playing Samples.C_over_A_B
  ∧ remove "A" Samples.C_over_A_B = forget "A" Samples.C_over_A_B.
Proof.
  assert ("A" ∈ not_playing Samples.C_over_A_B) as Hin by by_decide.
  split; [exact I2_C_over_A_B |]. split; [exact Hin |].
  apply (remove_erases_idle_player "A" Samples.C_over_A_B I2_C_over_A_B Hin).
Defined.

Lemma status_signal_classifies_sender_witness :
  I2 Samples.C_over_A_B
  ∧ ({["PlaybackStatus" := "Paused"]} : gmap string string)
      !! "PlaybackStatus" = Some "Paused"
  ∧ ("C" ∈ not_playing
       (handle_signal_properties_changed MPRIS_INTERFACE
          {["PlaybackStatus" := "Paused"]} "C" Samples.C_over_A_B)
     ↔ "Paused" ≠ "Playing").
Proof.
  split; [exact I2_C_over_A_B |]. split; [reflexivity |].
  apply (status_signal_classifies_sender {["PlaybackStatus" := "Paused"]}
           "Paused" "C" Samples.C_over_A_B I2_C_over_A_B).
  reflexivity.
Defined.

End RegistryLaws.

(** * The daemon from start-up on *)

Module DaemonFacts.
Import Registry RegistryFacts Daemon.

(** ** [is_mpris_player] *)

Lemma append_cons (b : Ascii.ascii) (s rest : string) :
  String b s +:+ rest = String b (s +:+ rest).
Proof. reflexivity. Qed.

Lemma prefix_append (s1 s2 : string) :
  String.prefix s1 s2 = true ↔ ∃ rest, s2 = s1 +:+ rest.
Proof.
  revert s2. induction s1 as [|a s1 IH]; intros s2.
  - split; [intros _; by exists s2 | intros _; by destruct s2].
  - destruct s2 as [|b s2]; cbn.
    + split; [done | intros [rest Hr]; discriminate].
    + destruct (Ascii.ascii_dec a b) as [-> | Hne].
      * rewrite IH. split; intros [rest Hr]; exists rest;
          rewrite append_cons in *; congruence.
      * split; [done | intros [rest Hr]; rewrite append_cons in Hr; congruence].
Qed.

Lemma index_at_start (sub s : string) :
  sub ≠ "" → (String.index 0 sub s = Some 0 ↔ String.prefix sub s = true).
Proof.
  intros Hsub. destruct s as [|b s].
  - destruct sub; [done |]. cbn. split; discriminate.
  - change (String.index 0 sub (String b s))
      with (if String.prefix sub (String b s) then Some 0
            else match String.index 0 sub s with
                 | Some n => Some (S n)
                 | None => None
                 end).
    destruct (String.prefix sub (String b s)); [done |].
    destruct (String.index 0 sub s); split; discriminate.
Qed.

(** X8: [is_mpris_player] accepts exactly the names that start with
    ["org.mpris.MediaPlayer2"]; the empty name and a name that holds the
    text further in are refused. *)
Theorem is_mpris_player_iff_prefix (name : string) :
  is_mpris_player name = true
  ↔ ∃ rest, name = "org.mpris.MediaPlayer2" +:+ rest.
Proof.
  rewrite <- prefix_append, <- index_at_start by done.
  unfold is_mpris_player, str_find. rewrite bool_decide_eq_true.
  destruct (String.index 0 "org.mpris.MediaPlayer2" name) as [i|].
  - split; [intros Hi; f_equal; lia | by intros [= ->]].
  - split; [lia | done].
Qed.

Example is_mpris_player_vlc :
  is_mpris_player "org.mpris.MediaPlayer2.vlc" = true.
Proof. vm_compute. reflexivity. Qed.

Example is_mpris_player_inner :
  is_mpris_player "x.org.mpris.MediaPlayer2" = false.
Proof. vm_compute. reflexivity. Qed.

(** ** The players found at start-up *)

Section start.

Variable bus : StartBus.

Lemma known_markas_playing (id x : string) (c : Controller) :
  x ∈ playing (markas_playing id c) ∨ x ∈ not_playing (markas_playing id c)
  ↔ x = id ∨ x ∈ playing c ∨ x ∈ not_playing c.
Proof.
  unfold markas_playing.
  destruct (list_remove id (not_playing c)) as [r|] eqn:Hr.
  - apply list_remove_Some in Hr as (l1 & l2 & Hl & -> & _). rewrite Hl.
    case_decide; cbn;
      rewrite ?elem_of_union, ?elem_of_singleton, !elem_of_app, elem_of_cons;
      destruct (decide (x = id)) as [-> |]; tauto.
  - case_decide; cbn; rewrite ?elem_of_union, ?elem_of_singleton;
      destruct (decide (x = id)) as [-> |]; tauto.
Qed.

Lemma known_markas_not_playing (id x : string) (c : Controller) :
  x ∈ playing (markas_not_playing id c)
  ∨ x ∈ not_playing (markas_not_playing id c)
  ↔ x = id ∨ x ∈ playing c ∨ x ∈ not_playing c.
Proof.
  unfold markas_not_playing.
  case_decide; cbn;
    rewrite elem_of_difference, elem_of_singleton,
      ?elem_of_app, ?list_elem_of_singleton;
    destruct (decide (x = id)) as [-> |]; tauto.
Qed.

Lemma sorted_markas_playing (id : string) (c : Controller) :
  playback_status bus id = Some "Playing" →
  sorted_by_status bus c → sorted_by_status bus (markas_playing id c).
Proof.
  intros Hid Hc x. destruct (Hc x) as [Hp Hn]. unfold markas_playing.
  assert (x ∈ match list_remove id (not_playing c) with
              | Some l => l
              | None => not_playing c
              end → x ∈ not_playing c) as Hsub.
  { destruct (list_remove id (not_playing c)) eqn:Hr; [| done].
    by apply list_remove_subseteq with id. }
  case_decide; cbn; (split; [| by intros Hx; apply Hn, Hsub]); [done |].
  rewrite elem_of_union, elem_of_singleton. intros [Hx | ->]; auto.
Qed.

Lemma sorted_markas_not_playing (id : string) (c : Controller) :
  playback_status bus id ≠ Some "Playing" →
  sorted_by_status bus c → sorted_by_status bus (markas_not_playing id c).
Proof.
  intros Hid Hc x. destruct (Hc x) as [Hp Hn]. unfold markas_not_playing.
  case_decide; cbn; rewrite elem_of_difference;
    (split; [tauto |]); [done |].
  rewrite elem_of_app, list_elem_of_singleton. intros [Hx | ->]; auto.
Qed.

Lemma detect_spec (names : list string) (c0 c : Controller) :
  detect bus names c0 = Some c →
  (I1 c0 ∧ I2 c0 → I1 c ∧ I2 c)
  ∧ (sorted_by_status bus c0 → sorted_by_status bus c)
  ∧ ∀ x, x ∈ playing c ∨ x ∈ not_playing c
         ↔ (x ∈ playing c0 ∨ x ∈ not_playing c0)
           ∨ ∃ n, n ∈ names ∧ get_name_owner bus n = Some x.
Proof.
  revert c0. induction names as [|n names IH]; intros c0; cbn.
  - intros [= ->]. split_and!; [done | done |]. intros x.
    split; [tauto |]. intros [Hx | (n & Hn & _)]; [done |].
    by apply not_elem_of_nil in Hn.
  - destruct (get_name_owner bus n) as [name|] eqn:Hown; [| done].
    destruct (playback_status bus name) as [status|] eqn:Hst; [| done].
    case_decide as Hs; intros Hd;
      destruct (IH _ Hd) as (Hinv & Hsorted & Hknown); split_and!.
    + intros [H1 H2]. by apply Hinv, markas_playing_inv.
    + intros Hc. apply Hsorted, sorted_markas_playing; [congruence | done].
    + intros x. rewrite Hknown, known_markas_playing.
      split.
      * intros [[-> | Hx] | (n' & Hn' & Hx)]; [| tauto |].
        -- right. exists n. split; [by left | done].
        -- right. exists n'. split; [by right | done].
      * intros [Hx | (n' & Hn' & Hx)]; [tauto |].
        apply elem_of_cons in Hn' as [-> | Hn'].
        -- left. left. congruence.
        -- right. by exists n'.
    + intros [H1 H2]. by apply Hinv, markas_not_playing_inv.
    + intros Hc. apply Hsorted, sorted_markas_not_playing; [| done].
      rewrite Hst. by intros [= ->].
    + intros x. rewrite Hknown, known_markas_not_playing.
      split.
      * intros [[-> | Hx] | (n' & Hn' & Hx)]; [| tauto |].
        -- right. exists n. split; [by left | done].
        -- right. exists n'. split; [by right | done].
      * intros [Hx | (n' & Hn' & Hx)]; [tauto |].
        apply elem_of_cons in Hn' as [-> | Hn'].
        -- left. left. congruence.
        -- right. by exists n'.
Qed.

Lemma handle_inv (c : Controller) (s : Signal) :
  I1 c ∧ I2 c → I1 (handle c s) ∧ I2 (handle c s).
Proof.
  intros [H1 H2]. destruct s as [interface props sender | name old new]; cbn.
  - unfold handle_signal_properties_changed.
    case_decide; [| done]. destruct (props !! "PlaybackStatus"); [| done].
    case_decide; [by apply markas_playing_inv | by apply markas_not_playing_inv].
  - unfold handle_signal_name_change.
    case_decide; [by apply remove_inv | done].
Qed.

Lemma serve_inv (sigs : list Signal) (c : Controller) :
  I1 c ∧ I2 c → I1 (serve sigs c) ∧ I2 (serve sigs c).
Proof.
  revert c. induction sigs as [|s sigs IH]; intros c Hc; [done |].
  apply IH, handle_inv, Hc.
Qed.

(** X9: when the constructor of [Controller] returns, and after every
    sequence of properties-changed and name-owner-changed signals served
    from there, no identifier is in both containers and [not_playing]
    holds no identifier twice. *)
Theorem daemon_keeps_invariants (c : Controller) (sigs : list Signal) :
  Controller_init bus = Some c →
  I1 (serve sigs c) ∧ I2 (serve sigs c).
Proof.
  intros Hinit. apply serve_inv.
  destruct (detect_spec _ _ _ Hinit) as (Hinv & _ & _).
  apply Hinv, init_inv.
Qed.

(** X10: when the constructor of [Controller] returns, the registry holds
    exactly the owners of the bus names that start with
    ["org.mpris.MediaPlayer2"]: those whose status is ["Playing"] are in
    [playing], the others are in [not_playing]; owners of other names are
    in neither container. *)
Theorem start_up_classifies (c : Controller) (x : string) :
  Controller_init bus = Some c →
  (x ∈ playing c
   ↔ (∃ n, n ∈ list_names bus ∧ is_mpris_player n = true
           ∧ get_name_owner bus n = Some x)
     ∧ playback_status bus x = Some "Playing")
  ∧ (x ∈ not_playing c
     ↔ (∃ n, n ∈ list_names bus ∧ is_mpris_player n = true
             ∧ get_name_owner bus n = Some x)
       ∧ playback_status bus x ≠ Some "Playing").
Proof.
  intros Hinit.
  destruct (detect_spec _ _ _ Hinit) as (_ & Hsorted & Hknown).
  assert (sorted_by_status bus c) as Hc.
  { apply Hsorted. intros y. split; intros Hy.
    - by apply not_elem_of_empty in Hy.
    - by apply not_elem_of_nil in Hy. }
  assert (x ∈ playing c ∨ x ∈ not_playing c
          ↔ ∃ n, n ∈ list_names bus ∧ is_mpris_player n = true
                 ∧ get_name_owner bus n = Some x) as Hx.
  { rewrite Hknown. split.
    - intros [[Hy | Hy] | (n & Hn & Hown)].
      + by apply not_elem_of_empty in Hy.
      + by apply not_elem_of_nil in Hy.
      + apply list_elem_of_filter in Hn as [Hp Hn]. exists n.
        split_and!; [done | by apply Is_true_true | done].
    - intros (n & Hn & Hp & Hown). right. exists n. split; [| done].
      apply list_elem_of_filter. split; [by apply Is_true_true | done]. }
  destruct (Hc x) as [Hp Hn]. split; split.
  - intros Hin. split; [apply Hx; by left | by apply Hp].
  - intros [Hon Hst]. apply Hx in Hon as [Hin | Hin]; [done |].
    by apply Hn in Hin.
  - intros Hin. split; [apply Hx; by right | by apply Hn].
  - intros [Hon Hst]. apply Hx in Hon as [Hin | Hin]; [| done].
    by apply Hp in Hin.
Qed.

End start.

(** ** A start-up with one player on the bus *)

Lemma one_player_start :
  Controller_init (one_player_bus "Playing")
  = Some {| playing := {[":1.5"]}; not_playing := [] |}.
Proof. vm_compute. reflexivity. Defined.

Lemma daemon_keeps_invariants_witness :
  Controller_init (one_player_bus "Playing")
  = Some {| playing := {[":1.5"]}; not_playing := [] |}
  ∧ I2 (serve [PropertiesChanged MPRIS_INTERFACE
                 {["PlaybackStatus" := "Paused"]} ":1.5";
               NameOwnerChanged ":1.5" ":1.5" ""]
          {| playing := {[":1.5"]}; not_playing := [] |}).
Proof.
  split; [exact one_player_start |].
  apply (daemon_keeps_invariants (one_player_bus "Playing")
           {| playing := {[":1.5"]}; not_playing := [] |}
           [PropertiesChanged MPRIS_INTERFACE
              {["PlaybackStatus" := "Paused"]} ":1.5";
            NameOwnerChanged ":1.5" ":1.5" ""]
           one_player_start).
Defined.

Lemma start_up_classifies_witness :
  Controller_init (one_player_bus "Playing")
  = Some {| playing := {[":1.5"]}; not_playing := [] |}
  ∧ (":1.0" ∈ playing {| playing := {[":1.5"]}; not_playing := [] |}
     ↔ (∃ n, n ∈ list_names (one_player_bus "Playing")
             ∧ is_mpris_player n = true
             ∧ get_name_owner (one_player_bus "Playing") n = Some ":1.0")
       ∧ playback_status (one_player_bus "Playing") ":1.0" = Some "Playing").
Proof.
  split; [exact one_player_start |].
  apply (start_up_classifies (one_player_bus "Playing")
           {| playing := {[":1.5"]}; not_playing := [] |} ":1.0"
           one_player_start).
Defined.

Example start_up_paused_player :
  Controller_init (one_player_bus "Paused")
  = Some {| playing := ∅; not_playing := [":1.5"] |}.
Proof. vm_compute. reflexivity. Qed.

End DaemonFacts.

(** * More on the exported methods *)

Module DispatchLaws.
Import Registry Dispatch RegistryFacts DispatchFacts.

Section laws.

Variable bus : string → string → bool.
Variable set_iter : gset string → list string.

Lemma for_each_outcome (m : string) (l : list string) (c : Controller) :
  outcome (for_each l (λ n, remote_call bus n m) c) = Ok ()
  ∨ outcome (for_each l (λ n, remote_call bus n m) c) = Raise DBusException.
Proof.
  induction l as [|n l IH]; [by left |].
  rewrite for_each_cons. destruct (bus n m); [exact IH | by right].
Qed.

Lemma call_on_one_playing_run (m : string) (c : Controller) :
  call_on_one_playing bus set_iter m c
  = if decide (size (playing c) = 1)
    then for_each (set_iter (playing c)) (λ n, remote_call bus n m) c
    else mkRun c [] (Ok ()).
Proof.
  unfold call_on_one_playing, mbind, M_bind, get_self. cbn.
  case_decide; [| done].
  rewrite call_on_all_playing_eq. cbn. by destruct (for_each _ _ c).
Qed.

Lemma remote_call_outcome (n m : string) (c : Controller) :
  outcome (remote_call bus n m c) = Ok ()
  ∨ outcome (remote_call bus n m c) = Raise DBusException.
Proof. unfold remote_call. cbn. destruct (bus n m); [by left | by right]. Qed.

(** X11: [PlayPause], [Next] and [Previous] only read the registry, which
    is the same after the method as before it, whether the method returns
    or raises; and the only exception that can leave them is the
    [DBusException] of an outbound call. *)
Theorem methods_read_only (c : Controller) :
  (final (PlayPause bus set_iter c) = c
   ∧ final (Next bus set_iter c) = c
   ∧ final (Previous bus set_iter c) = c)
  ∧ (outcome (PlayPause bus set_iter c) = Ok ()
     ∨ outcome (PlayPause bus set_iter c) = Raise DBusException)
  ∧ (outcome (Next bus set_iter c) = Ok ()
     ∨ outcome (Next bus set_iter c) = Raise DBusException)
  ∧ (outcome (Previous bus set_iter c) = Ok ()
     ∨ outcome (Previous bus set_iter c) = Raise DBusException).
Proof.
  unfold Next, Previous. rewrite !call_on_one_playing_run.
  split_and!.
  - destruct (decide (playing c = ∅)) as [He | Hne].
    + rewrite PlayPause_idle by done.
      destruct (last (not_playing c)); [| done].
      unfold remote_call. by destruct (bus _ _).
    + rewrite PlayPause_playing by done. apply for_each_final.
  - case_decide; [apply for_each_final | done].
  - case_decide; [apply for_each_final | done].
  - destruct (decide (playing c = ∅)) as [He | Hne].
    + rewrite PlayPause_idle by done.
      destruct (last (not_playing c)); [apply remote_call_outcome | by left].
    + rewrite PlayPause_playing by done. apply for_each_outcome.
  - case_decide; [apply for_each_outcome | by left].
  - case_decide; [apply for_each_outcome | by left].
Qed.

Hypothesis set_iter_perm : ∀ s, set_iter s ≡ₚ elements s.

(** X12: when nobody but [id] is playing and [not_playing] has no
    duplicates, the play/pause key follows the player: once [id] is marked
    playing, [PlayPause] sends one call, Pause to [id]; once it is then
    marked not playing, [PlayPause] sends one call, Play to [id], whatever
    other players wait in [not_playing]. *)
Theorem PlayPause_follows_last_player (id : string) (c : Controller) :
  I2 c → (∀ x, x ∈ playing c → x = id) →
  sent (PlayPause bus set_iter (markas_playing id c)) = [(id, "Pause")]
  ∧ sent (PlayPause bus set_iter
            (markas_not_playing id (markas_playing id c)))
    = [(id, "Play")].
Proof.
  intros H2 Honly.
  assert (playing (markas_playing id c) = {[id]}) as Hp.
  { apply set_eq. intros x. rewrite elem_of_singleton.
    unfold markas_playing. case_decide as Hin; cbn.
    - split; [apply Honly | by intros ->].
    - rewrite elem_of_union, elem_of_singleton.
      split; [intros [Hx | Hx]; auto | by right]. }
  split.
  - rewrite PlayPause_playing.
    + rewrite Hp, (set_iter_singleton set_iter set_iter_perm).
      rewrite for_each_cons. by destruct (bus id "Pause").
    + rewrite Hp. intros He. apply (f_equal (λ s, bool_decide (id ∈ s))) in He.
      rewrite bool_decide_eq_true_2 in He by (by apply elem_of_singleton).
      rewrite bool_decide_eq_false_2 in He by apply not_elem_of_empty.
      discriminate.
  - rewrite RegistryLaws.playing_then_not_playing by done.
    rewrite PlayPause_idle.
    + cbn. rewrite last_snoc. unfold remote_call. cbn. done.
    + cbn. apply set_eq. intros x.
      rewrite elem_of_difference, elem_of_singleton.
      split; [intros [Hx Hne]; by apply Honly in Hx |].
      intros Hx. by apply not_elem_of_empty in Hx.
Qed.

End laws.

Lemma PlayPause_follows_last_player_witness :
  I2 Samples.idle_A_B
  ∧ (∀ x, x ∈ playing Samples.idle_A_B → x = "A")
  ∧ sent (PlayPause all_reachable elements
            (markas_not_playing "A" (markas_playing "A" Samples.idle_A_B)))
    = [("A", "Play")].
Proof.
  assert (∀ x, x ∈ playing Samples.idle_A_B → x = "A") as Honly.
  { intros x Hx. exfalso. revert Hx. apply not_elem_of_empty. }
  split; [exact RegistryLaws.I2_idle_A_B |]. split; [exact Honly |].
  apply (PlayPause_follows_last_player all_reachable elements elements_perm
           "A" Samples.idle_A_B RegistryLaws.I2_idle_A_B Honly).
Defined.

End DispatchLaws.

(** * More on the client: every way through [entry_point] *)

Module ClientFacts.
Import Bootstrap ClientRuns BootstrapFacts.

#[local] Arguments Daemon.Controller_init : simpl never.

(** X13: with [--no-fork] and a method name together, [entry_point] logs
    the error and ends with [exit(1)] before it touches the bus: no
    ownership probe, no fork, no daemon start and no method call. *)
Theorem method_with_no_fork_exits
    (bus : SessionBus) (args : Args) (nofork : bool) (m : string) :
  no_fork args = true → call args = Some m →
  entry_point bus args nofork start
  = Halt (SystemExit 1)
      {| probes := 0;
         trace := [LogError "Cannot specify method with --no-fork. Exiting."] |}.
Proof.
  intros Hnf Hcall. unfold entry_point, _parse_args.
  rewrite Hnf, Hcall. reflexivity.
Qed.

(** X14: when the daemon already owns the name at the first probe,
    [entry_point] neither forks nor sleeps nor starts a daemon: it makes the
    requested call once, if one was requested. When that call returns, or
    fails with a [DBusException] (which is caught and logged with its
    text), the process ends with exit status 0; an exception of another
    class is not caught and ends the process. *)
Theorem daemon_already_up
    (bus : SessionBus) (args : Args) (nofork : bool) :
  no_fork args && bool_decide (call args ≠ None) = false →
  name_has_owner bus 0 = true →
  entry_point bus args nofork start
  = Halt (after_delivery bus (call args))
      {| probes := 1;
         trace := NameHasOwner true :: delivery bus (call args) |}
  ∧ ((call args = None
      ∨ (∃ m, call args = Some m ∧ daemon_call bus m = Returns)
      ∨ (∃ m ex, call args = Some m
                 ∧ daemon_call bus m = Raises DBusException ex)) →
     outcome_of (entry_point bus args nofork start) = Some (SystemExit 0))
  ∧ (∀ m e ex, call args = Some m → daemon_call bus m = Raises e ex →
               e ≠ DBusException →
               outcome_of (entry_point bus args nofork start)
               = Some (Uncaught e)).
Proof.
  intros Hok Hup.
  assert (entry_point bus args nofork start
          = Halt (after_delivery bus (call args))
              {| probes := 1;
                 trace := NameHasOwner true :: delivery bus (call args) |})
    as ->.
  { unfold entry_point, _parse_args. rewrite Hok. run_client.
    rewrite Hup. run_client.
    destruct (call args) as [m|]; run_client; [| done].
    destruct (daemon_call bus m) as [|[] ex]; run_client; done. }
  split_and!; [done | |].
  - intros [-> | [(m & -> & Hm) | (m & ex & -> & Hm)]]; cbn; [done | |];
      by rewrite Hm.
  - intros m e ex -> Hm He. cbn. rewrite Hm. by destruct e.
Qed.


(** X16: when the [k]-th ownership check after the fork (k from 1 to 6) is
    the first to find the daemon, the client has slept the first [k]
    intervals of the schedule, sleeps 0.2 seconds more and makes the
    requested call once; it ends with exit status 0 when that call
    returned or failed with a [DBusException], and by the exception when
    the call raised one of another class. *)
Theorem daemon_comes_up
    (bus : SessionBus) (args : Args) (k : nat) :
  no_fork args = false →
  (1 ≤ k ≤ 6)%nat →
  (∀ j : nat, (j < k)%nat → name_has_owner bus j = false) →
  name_has_owner bus k = true →
  entry_point bus args false start
  = Halt (after_delivery bus (call args))
      {| probes := S k;
         trace := [NameHasOwner false; Fork] ++ polls k
                  ++ [Sleep 0.2%Q] ++ delivery bus (call args) |}.
Proof.
  intros Hnf Hk Hdown Hup.
  unfold entry_point, _parse_args. rewrite Hnf. run_client.
  rewrite (Hdown 0%nat) by lia. rewrite Hnf. run_client.
  assert (k = 1 ∨ k = 2 ∨ k = 3 ∨ k = 4 ∨ k = 5 ∨ k = 6)%nat
    as Hcases by lia.
  repeat destruct Hcases as [-> | Hcases]; try subst k;
    repeat (rewrite Hdown by lia; run_client);
    rewrite Hup; run_client;
    destruct (call args) as [m|]; run_client; try done;
    destruct (daemon_call bus m) as [|[] ex]; run_client; done.
Qed.

(** X17: on a session bus that answers the ownership probes, whatever it
    answers and whatever the arguments, [entry_point] never returns to its
    caller: it ends in [exit], in the main loop of the daemon, or by an
    uncaught exception. Such an exception is either the [DBusException] of
    a failed constructor of [Controller] or an exception of another class
    raised by the requested method call. On the way the process probes the
    ownership at most 7 times, calls a method of the daemon at most once,
    and sleeps at most 5 seconds in all. *)
Theorem entry_point_bounds (bus : SessionBus) (args : Args) (nofork : bool) :
  is_Some (outcome_of (entry_point bus args nofork start))
  ∧ (∀ e, outcome_of (entry_point bus args nofork start) = Some (Uncaught e) →
          (e = DBusException ∧ Daemon.Controller_init (players bus) = None)
          ∨ (e ≠ DBusException
             ∧ ∃ m ex, call args = Some m ∧ daemon_call bus m = Raises e ex))
  ∧ (probes (proc_of (entry_point bus args nofork start)) ≤ 7)%nat
  ∧ (length (calls_made (trace (proc_of (entry_point bus args nofork start))))
     ≤ 1)%nat
  ∧ (total_sleep (trace (proc_of (entry_point bus args nofork start)))
     <= 5)%Q.
Proof.
  unfold entry_point, _parse_args.
  destruct (no_fork args) eqn:Hnf, (call args) as [m|] eqn:Hcall,
    nofork; run_client.
  all: repeat next_probe.
  all: rewrite ?Hnf, ?Hcall; run_client.
  all: repeat next_probe.
  all: rewrite ?Hnf, ?Hcall; run_client.
  all: try (destruct (Daemon.Controller_init (players bus)) eqn:Hinit;
            run_client).
  all: try (destruct (daemon_call bus m) as [|[] ex] eqn:Hdc; run_client).
  all: split_and!; [by eexists | | lia | lia | by vm_compute].
  all: intros e [= <-] || (intros e He; discriminate He).
  all: (left; by split) || (right; split; [done | by eexists _, _]).
Qed.

(** ** Runs on concrete buses *)

Lemma method_with_no_fork_exits_witness :
  no_fork (mkArgs (Some "Next") true false) = true
  ∧ call (mkArgs (Some "Next") true false) = Some "Next"
  ∧ entry_point dead_bus (mkArgs (Some "Next") true false) false start
    = Halt (SystemExit 1)
        {| probes := 0;
           trace :=
             [LogError "Cannot specify method with --no-fork. Exiting."] |}.
Proof.
  split; [reflexivity |]. split; [reflexivity |].
  apply (method_with_no_fork_exits dead_bus (mkArgs (Some "Next") true false)
           false "Next"); reflexivity.
Defined.

Lemma daemon_already_up_witness :
  name_has_owner (up_from 0) 0 = true
  ∧ entry_point (up_from 0) (mkArgs (Some "PlayPause") false false) false start
    = Halt (SystemExit 0)
        {| probes := 1;
           trace := [NameHasOwner true; CallMethod "PlayPause" false;
                     LogError ("UnknownMethod" ++ newline
                               ++ "Failed to call method PlayPause.")%string]
        |}.
Proof.
  split; [reflexivity |].
  apply (daemon_already_up (up_from 0) (mkArgs (Some "PlayPause") false false)
           false); reflexivity.
Defined.

Example daemon_up_doc_call :
  entry_point doc_call_bus (mkArgs (Some "__doc__") false false) false start
  = Halt (Uncaught TypeError)
      {| probes := 1;
         trace := [NameHasOwner true; CallMethod "__doc__" false] |}.
Proof. vm_compute. reflexivity. Qed.


Example foreground_silent_player :
  entry_point silent_player_bus (mkArgs None true false) false start
  = Halt (Uncaught DBusException)
      {| probes := 1; trace := [NameHasOwner false; StartDaemon] |}.
Proof. vm_compute. reflexivity. Qed.

Lemma up_from_3_down (j : nat) :
  (j < 3)%nat → name_has_owner (up_from 3) j = false.
Proof.
  intros Hj. unfold up_from. cbn. apply bool_decide_eq_false_2. lia.
Defined.

Lemma daemon_comes_up_witness :
  (1 ≤ 3 ≤ 6)%nat
  ∧ name_has_owner (up_from 3) 3 = true
  ∧ entry_point (up_from 3) (mkArgs (Some "PlayPause") false false) false start
    = Halt (SystemExit 0)
        {| probes := 4;
           trace := [NameHasOwner false; Fork;
                     Sleep 0.2%Q; NameHasOwner false;
                     Sleep 0.3%Q; NameHasOwner false;
                     Sleep 0.4%Q; NameHasOwner true;
                     Sleep 0.2%Q;
                     CallMethod "PlayPause" false;
                     LogError ("UnknownMethod" ++ newline
                               ++ "Failed to call method PlayPause.")%string]
        |}.
Proof.
  split; [lia |]. split; [reflexivity |].
  apply (daemon_comes_up (up_from 3) (mkArgs (Some "PlayPause") false false) 3).
  - reflexivity.
  - lia.
  - exact up_from_3_down.
  - reflexivity.
Defined.

End ClientFacts.
